(** * Laser power stabilisation: rotation-mount driver, PID loop and simulation

    A shallow embedding of the two notebooks of the repository:
    - [laser_pid.ipynb]: the serial command API of the rotation mount
      ([move_to], [move_by], [go_home], [get_angle], [sign_extend],
      [set_speed]) and the PID control loop;
    - [laser_pid_sim.ipynb]: the simulated plant [get_voltage] and the
      simulation loop.

    Conventions.  Python [float]s are idealised as exact rationals ([Q]);
    Python [int]s are [Z]; [bytes] and [str] objects are [string]s of 8-bit
    characters.  An exception is a value of [exn] carried by [result].  The
    serial port is a record holding what has been written and what the
    device will answer.  Clock readings are inputs of the loop bodies. *)

From Stdlib Require Import ZArith QArith Qabs Qround Bool List Ascii String Lia Lqa.
From Stdlib Require Import Reals Qreals Lra Machin.
Import ListNotations.

Local Open Scope Z_scope.

(** ** Exceptions *)

Inductive exn : Type :=
| ValueError
| TypeError.

Inductive result (A : Type) : Type :=
| Ok (a : A)
| Raise (e : exn).

Arguments Ok {A} a.
Arguments Raise {A} e.

Definition rbind {A B : Type} (r : result A) (k : A -> result B) : result B :=
  match r with
  | Ok a => k a
  | Raise e => Raise e
  end.

Declare Scope result_scope.
Delimit Scope result_scope with result.
Notation "x <~ r ;; k" := (rbind r (fun x => k))
  (at level 61, r at next level, right associativity) : result_scope.

(** ** Python built-ins used by the notebooks *)

Module Py.

(** [int(x)] on a float: truncation toward zero. *)
Definition int_of_float (x : Q) : Z := Z.quot (Qnum x) (Z.pos (Qden x)).

(** [np.clip(a, a_min, a_max)]: [minimum(a_max, maximum(a, a_min))]. *)
Definition np_clip (a a_min a_max : Q) : Q :=
  let m := if Qle_bool a_min a then a else a_min in
  if Qle_bool m a_max then m else a_max.

Definition cr : ascii := ascii_of_nat 13.
Definition lf : ascii := ascii_of_nat 10.
Definition tab : ascii := ascii_of_nat 9.
Definition squote : ascii := ascii_of_nat 39.
Definition dquote : ascii := ascii_of_nat 34.
Definition backslash : ascii := ascii_of_nat 92.

(** The two-byte line terminator written as [\r\n] in the notebook. *)
Definition crlf : string := String cr (String lf EmptyString).

(** One hexadecimal digit, upper case for [%X] and lower case for [%x]. *)
Definition hex_digit (upper : bool) (d : Z) : ascii :=
  if d <? 10 then ascii_of_nat (Z.to_nat (48 + d))
  else ascii_of_nat (Z.to_nat ((if upper then 55 else 87) + d)).

Fixpoint hex_of_Z_aux (fuel : nat) (upper : bool) (n : Z) (acc : string) : string :=
  match fuel with
  | O => acc
  | S fuel' =>
      if n =? 0 then acc
      else hex_of_Z_aux fuel' upper (n / 16) (String (hex_digit upper (n mod 16)) acc)
  end.

(** The digits of a non-negative integer in base 16, most significant first. *)
Definition hex_of_Z (upper : bool) (n : Z) : string :=
  if n =? 0 then "0"%string
  else hex_of_Z_aux (S (Z.to_nat (Z.log2 n))) upper n EmptyString.

Fixpoint zeros (k : nat) : string :=
  match k with
  | O => EmptyString
  | S k' => String "0"%char (zeros k')
  end.

(** [b'%0wX' % n] and [b'%0wx' % n] for [n >= 0]: at least [w] digits,
    padded with zeros on the left. *)
Definition format_0wx (upper : bool) (w : nat) (n : Z) : string :=
  let digits := hex_of_Z upper n in
  (zeros (w - String.length digits) ++ digits)%string.

(** [str(b)] for a [bytes] object [b], which is its [repr]. *)
Fixpoint contains (c : ascii) (s : string) : bool :=
  match s with
  | EmptyString => false
  | String d s' => Ascii.eqb c d || contains c s'
  end.

Definition repr_byte (quote c : ascii) : string :=
  if Ascii.eqb c quote || Ascii.eqb c backslash then String backslash (String c EmptyString)
  else if Ascii.eqb c tab then String backslash "t"
  else if Ascii.eqb c lf then String backslash "n"
  else if Ascii.eqb c cr then String backslash "r"
  else
    let k := Z.of_nat (nat_of_ascii c) in
    if (k <? 32) || (127 <=? k)
    then String backslash (String "x"%char (format_0wx false 2 k))
    else String c EmptyString.

Fixpoint repr_body (quote : ascii) (b : string) : string :=
  match b with
  | EmptyString => EmptyString
  | String c b' => (repr_byte quote c ++ repr_body quote b')%string
  end.

Definition str_of_bytes (b : string) : string :=
  let quote := if contains squote b && negb (contains dquote b) then dquote else squote in
  String "b"%char (String quote (repr_body quote b ++ String quote EmptyString))%string.

(** [s[start:stop]] with Python's treatment of negative and out-of-range
    indices. *)
Definition slice_index (len i : Z) : Z :=
  if i <? 0 then Z.max (i + len) 0 else Z.min i len.

Definition slice (s : string) (start stop : Z) : string :=
  let len := Z.of_nat (String.length s) in
  let a := slice_index len start in
  let b := slice_index len stop in
  substring (Z.to_nat a) (Z.to_nat (b - a)) s.

(** [int(s, 16)].  Leading and trailing white space is skipped, a sign and
    a [0x]/[0X] prefix are optional, single underscores may separate
    digits, and at least one digit is required. *)
Definition is_space (c : ascii) : bool :=
  let k := Z.of_nat (nat_of_ascii c) in
  ((9 <=? k) && (k <=? 13)) || ((28 <=? k) && (k <=? 32)).

Definition hex_value (c : ascii) : option Z :=
  let k := Z.of_nat (nat_of_ascii c) in
  if (48 <=? k) && (k <=? 57) then Some (k - 48)
  else if (65 <=? k) && (k <=? 70) then Some (k - 55)
  else if (97 <=? k) && (k <=? 102) then Some (k - 87)
  else None.

Fixpoint lstrip (s : string) : string :=
  match s with
  | String c s' => if is_space c then lstrip s' else s
  | EmptyString => s
  end.

Definition is_underscore (c : ascii) : bool := Ascii.eqb c "_"%char.

(** Scans digits and underscores; returns the value, the number of
    characters consumed, whether the last one was an underscore, and the
    rest of the string.  [None] is a doubled underscore. *)
Fixpoint scan_hex (s : string) (acc : Z) (consumed : nat) (prev_us : bool)
  : option (Z * nat * bool * string) :=
  match s with
  | EmptyString => Some (acc, consumed, prev_us, s)
  | String c s' =>
      if is_underscore c then
        if prev_us then None else scan_hex s' acc (S consumed) true
      else
        match hex_value c with
        | Some d => scan_hex s' (16 * acc + d) (S consumed) false
        | None => Some (acc, consumed, prev_us, s)
        end
  end.

Definition int_base16 (s : string) : result Z :=
  let s1 := lstrip s in
  let '(sign, s2) :=
    match s1 with
    | String "+"%char r => (1, r)
    | String "-"%char r => (-1, r)
    | _ => (1, s1)
    end in
  let s3 :=
    match s2 with
    | String "0"%char (String x r) =>
        if Ascii.eqb x "x"%char || Ascii.eqb x "X"%char then
          match r with
          | String u r' => if is_underscore u then r' else r
          | EmptyString => r
          end
        else s2
    | _ => s2
    end in
  match s3 with
  | String u _ => if is_underscore u then Raise ValueError else
      match scan_hex s3 0 0 false with
      | Some (v, consumed, prev_us, rest) =>
          if prev_us then Raise ValueError
          else match consumed with
               | O => Raise ValueError
               | S _ =>
                   match lstrip rest with
                   | EmptyString => Ok (sign * v)
                   | String _ _ => Raise ValueError
                   end
               end
      | None => Raise ValueError
      end
  | EmptyString => Raise ValueError
  end.

End Py.

(** ** Rotation mount command API ([laser_pid.ipynb]) *)

Module Mount.

(** Radians between each encoder pulse: [43.8 * 10**(-6)]. *)
Definition ENCODER_RESOLUTION : Q := (438 # 10) * (1 # 1000000).

(** A Python function raising for a negative shift count. *)
Definition sign_extend (value bits : Z) : result Z :=
  if bits - 1 <? 0 then Raise ValueError
  else
    let sign_bit := Z.shiftl 1 (bits - 1) in
    Ok (Z.land value (sign_bit - 1) - Z.land value sign_bit).

(** The serial port: [tx] collects every command written, oldest first;
    [rx] holds what the successive [readline] calls will return.  The port
    is opened with [timeout=1]: a read that times out returns the empty
    [bytes] object, which is also what an exhausted [rx] yields. *)
Record serial : Type := {
  tx : list string;
  rx : list string
}.

(** Commands run on the port and may raise; the port keeps what was
    written and read before the exception. *)
Definition io (A : Type) : Type := serial -> result A * serial.

Definition ret {A : Type} (a : A) : io A := fun s => (Ok a, s).

Definition bind {A B : Type} (m : io A) (k : A -> io B) : io B :=
  fun s =>
    match m s with
    | (Ok a, s') => k a s'
    | (Raise e, s') => (Raise e, s')
    end.

Definition lift {A : Type} (r : result A) : io A := fun s => (r, s).

Declare Scope io_scope.
Delimit Scope io_scope with io.
Notation "x <- m ;; k" := (bind m (fun x => k))
  (at level 61, m at next level, right associativity) : io_scope.

Definition write (data : string) : io unit :=
  fun s => (Ok tt, {| tx := tx s ++ [data]; rx := rx s |}).

Definition readline : io string :=
  fun s =>
    match rx s with
    | [] => (Ok EmptyString, s)
    | line :: rest => (Ok line, {| tx := tx s; rx := rest |})
    end.

(** [int(angle / resolution) & 0xffffffff], the payload of [move_to] and
    [move_by]; the notebook's constant is the argument [resolution]. *)
Definition counts_field (resolution angle : Q) : Z :=
  Z.land (Py.int_of_float (angle / resolution)) 0xffffffff.

Definition move_to (angle : Q) : io unit :=
  (let command :=
     ("0ma" ++ Py.format_0wx true 8 (counts_field ENCODER_RESOLUTION angle) ++ Py.crlf)%string in
   _ <- write command ;;
   response <- readline ;;
   ret tt)%io.

Definition move_by (angle : Q) : io unit :=
  (let command :=
     ("0mr" ++ Py.format_0wx true 8 (counts_field ENCODER_RESOLUTION angle) ++ Py.crlf)%string in
   _ <- write command ;;
   response <- readline ;;
   ret tt)%io.

Definition go_home : io unit := move_to 0.

(** [sign_extend(n & 0xffffffff, 32) * resolution]. *)
Definition counts_to_angle (resolution : Q) (n : Z) : result Q :=
  (counts <~ sign_extend (Z.land n 0xffffffff) 32 ;;
   Ok (inject_Z counts * resolution)%Q)%result.

(** The right-hand side of the assignment to [angle] in [get_angle]. *)
Definition parse_position (resolution : Q) (response : string) : result Q :=
  (n <~ Py.int_base16 ("0X" ++ Py.slice (Py.str_of_bytes response) 5 (-5)) ;;
   counts_to_angle resolution n)%result.

Definition get_angle : io Q :=
  (let command := ("0gp" ++ Py.crlf)%string in
   _ <- write command ;;
   response <- readline ;;
   angle <- lift (parse_position ENCODER_RESOLUTION response) ;;
   ret angle)%io.

Definition set_speed (percent : Q) : io unit :=
  (let percent := Py.np_clip percent 0 100 in
   let command := ("0sv" ++ Py.format_0wx false 2 (Py.int_of_float percent))%string in
   _ <- write command ;;
   response <- readline ;;
   ret tt)%io.

End Mount.


(** ** The PID controller object

    Both notebooks import [PID] from the [simple_pid] package and only
    construct it and call it.  The record and [call] below follow that
    package's [PID.__init__] and [PID.__call__] for the arguments the
    notebooks pass; [auto_mode] and [proportional_on_measurement] keep
    their defaults ([True], [False]) and are not represented.  The clock
    reading taken inside the package is the argument [now]. *)

Module SimplePID.

Local Open Scope Q_scope.

Record PID : Type := {
  Kp : Q;
  Ki : Q;
  Kd : Q;
  setpoint : Q;
  sample_time : option Q;
  output_limits : option Q * option Q;
  _proportional : Q;
  _integral : Q;
  _derivative : Q;
  _last_time : Q;
  _last_output : option Q;
  _last_input : option Q
}.

Definition Qltb (x y : Q) : bool := negb (Qle_bool y x).

Definition _clamp (value : Q) (limits : option Q * option Q) : Q :=
  let (lower, upper) := limits in
  match upper with
  | Some u => if Qltb u value then u else
      match lower with
      | Some l => if Qltb value l then l else value
      | None => value
      end
  | None =>
      match lower with
      | Some l => if Qltb value l then l else value
      | None => value
      end
  end.

(** [PID(Kp, Ki, Kd, setpoint=..., sample_time=...)], constructed when the
    clock reads [now]; [output_limits] is left at its default
    [(None, None)]. *)
Definition new (kp ki kd sp st now : Q) : PID :=
  {| Kp := kp; Ki := ki; Kd := kd;
     setpoint := sp;
     sample_time := Some st;
     output_limits := (None, None);
     _proportional := 0;
     _integral := _clamp 0 (None, None);
     _derivative := 0;
     _last_time := now;
     _last_output := None;
     _last_input := None |}.

(** [dt = now - self._last_time if (now - self._last_time) else 1e-16] *)
Definition elapsed (self : PID) (now : Q) : Q :=
  if Qeq_bool (now - _last_time self) 0 then 1 # 10000000000000000
  else now - _last_time self.

(** The body of [__call__] after the sample-time test. *)
Definition compute (self : PID) (input_ now : Q) : option Q * PID :=
  let dt := elapsed self now in
  let error := setpoint self - input_ in
  let d_input := input_ - (match _last_input self with Some li => li | None => input_ end) in
  let proportional := Kp self * error in
  let integral := _clamp (_integral self + Ki self * error * dt) (output_limits self) in
  let derivative := - Kd self * d_input / dt in
  let output := _clamp (proportional + integral + derivative) (output_limits self) in
  (Some output,
   {| Kp := Kp self; Ki := Ki self; Kd := Kd self;
      setpoint := setpoint self;
      sample_time := sample_time self;
      output_limits := output_limits self;
      _proportional := proportional;
      _integral := integral;
      _derivative := derivative;
      _last_time := now;
      _last_output := Some output;
      _last_input := Some input_ |}).

(** [pid(input_)] at clock reading [now]: the value returned and the
    object afterwards. *)
Definition call (self : PID) (input_ now : Q) : option Q * PID :=
  let dt := elapsed self now in
  match sample_time self, _last_output self with
  | Some st, Some last =>
      if Qltb dt st then (_last_output self, self) else compute self input_ now
  | _, _ => compute self input_ now
  end.

End SimplePID.

(** ** The PID control loop ([laser_pid.ipynb]) *)

Module Loop.

Local Open Scope Q_scope.

Definition k_p : Q := 1.
Definition k_i : Q := 0.
Definition k_d : Q := 0.
Definition target_voltage : Q := 2 # 10.
Definition update_interval : Q := 5.

(** The variables the loop reads and assigns. *)
Record state : Type := {
  pid : SimplePID.PID;
  ser : Mount.serial;
  last_update_time : Q;
  times : list Q;
  voltages : list Q
}.

(** What one pass of the loop obtains from outside: the averaged
    oscilloscope reading returned by [get_voltage()], the clock reading
    taken inside [pid(...)], and [time.time()]. *)
Record sample : Type := {
  measured_voltage : Q;
  pid_clock : Q;
  now : Q
}.

(** The cell's statements before [while True], run when the two clocks
    read [t_pid] and [t]. *)
Definition init (port : Mount.serial) (t_pid t : Q) : state :=
  {| pid := SimplePID.new k_p k_i k_d target_voltage update_interval t_pid;
     ser := port;
     last_update_time := t;
     times := [];
     voltages := [] |}.

(** One pass through the body of [while True]. *)
Definition iteration (i : sample) (s : state) : result unit * state :=
  let (control, pid') := SimplePID.call (pid s) (measured_voltage i) (pid_clock i) in
  let times' := (times s ++ [now i])%list in
  let voltages' := (voltages s ++ [measured_voltage i])%list in
  let s1 := {| pid := pid'; ser := ser s; last_update_time := last_update_time s;
               times := times'; voltages := voltages' |} in
  if Qle_bool update_interval (now i - last_update_time s) then
    match Mount.get_angle (ser s) with
    | (Raise e, port) =>
        (Raise e, {| pid := pid'; ser := port; last_update_time := last_update_time s;
                     times := times'; voltages := voltages' |})
    | (Ok rotation_mount_angle, port) =>
        match control with
        | None =>
            (Raise TypeError,
             {| pid := pid'; ser := port; last_update_time := last_update_time s;
                times := times'; voltages := voltages' |})
        | Some u =>
            match Mount.move_to (rotation_mount_angle + u) port with
            | (Raise e, port') =>
                (Raise e, {| pid := pid'; ser := port'; last_update_time := last_update_time s;
                             times := times'; voltages := voltages' |})
            | (Ok _, port') =>
                (Ok tt, {| pid := pid'; ser := port'; last_update_time := now i;
                           times := times'; voltages := voltages' |})
            end
        end
    end
  else (Ok tt, s1).

(** The loop over the samples of a finite stretch of time.  No statement
    handles an exception, so the first one raised ends the loop. *)
Fixpoint run (samples : list sample) (s : state) : result unit * state :=
  match samples with
  | [] => (Ok tt, s)
  | i :: rest =>
      match iteration i s with
      | (Ok _, s') => run rest s'
      | (Raise e, s') => (Raise e, s')
      end
  end.

End Loop.

(** ** The simulation ([laser_pid_sim.ipynb]) *)

Module Sim.

Local Open Scope Q_scope.

(** [np.cos(polarization_angle)**2]; [np_cos] stands for [np.cos]. *)
Definition get_voltage (np_cos : Q -> Q) (rotation_mount_angle : Q) : Q :=
  let polarization_angle := rotation_mount_angle * 2 in
  (np_cos polarization_angle) ^ 2.

Definition Kp : Q := 1.
Definition Ki : Q := 0.
Definition Kd : Q := 0.
Definition update_interval : Q := 3.
Definition setpoint : Q := 2 # 10.

(** One printed line: error, control, mount angle, voltage. *)
Record line : Type := {
  error : Q;
  control : Q;
  mount_angle : Q;
  voltage : Q
}.

Record state : Type := {
  pid : SimplePID.PID;
  rotation_mount_angle : Q;
  start_time : Q;
  last_update_time : Q;
  times : list Q;
  voltages : list Q;
  printed : list line
}.

(** The clock readings of one pass, in the order the pass takes them: the
    [while] test, inside [pid(...)], [times.append], the [if] test and the
    assignment to [last_update_time]. *)
Record clock : Type := {
  t_while : Q;
  t_pid : Q;
  t_append : Q;
  t_if : Q;
  t_update : Q
}.

Definition init (t_pid0 t_start t_last : Q) : state :=
  {| pid := SimplePID.new Kp Ki Kd setpoint update_interval t_pid0;
     rotation_mount_angle := 0;
     start_time := t_start;
     last_update_time := t_last;
     times := [];
     voltages := [];
     printed := [] |}.

(** The body of the [while] loop. *)
Definition iteration (np_cos : Q -> Q) (c : clock) (s : state) : result unit * state :=
  let measured_voltage := get_voltage np_cos (rotation_mount_angle s) in
  let (u, pid') := SimplePID.call (pid s) measured_voltage (t_pid c) in
  let times' := (times s ++ [t_append c])%list in
  let voltages' := (voltages s ++ [measured_voltage])%list in
  if Qle_bool update_interval (t_if c - last_update_time s) then
    match u with
    | None =>
        (Raise TypeError,
         {| pid := pid'; rotation_mount_angle := rotation_mount_angle s;
            start_time := start_time s; last_update_time := last_update_time s;
            times := times'; voltages := voltages'; printed := printed s |})
    | Some control =>
        let angle' := rotation_mount_angle s + control in
        (Ok tt,
         {| pid := pid'; rotation_mount_angle := angle';
            start_time := start_time s; last_update_time := t_update c;
            times := times'; voltages := voltages';
            printed := (printed s ++
                        [{| error := SimplePID.setpoint pid' - measured_voltage;
                            control := control;
                            mount_angle := angle';
                            voltage := get_voltage np_cos angle' |}])%list |})
    end
  else
    (Ok tt,
     {| pid := pid'; rotation_mount_angle := rotation_mount_angle s;
        start_time := start_time s; last_update_time := last_update_time s;
        times := times'; voltages := voltages'; printed := printed s |}).

(** [while time.time() - start_time < 45: ...] over the clock readings of
    the successive passes; the loop ends at the first pass whose [while]
    test fails. *)
Fixpoint run (np_cos : Q -> Q) (clocks : list clock) (s : state) : result unit * state :=
  match clocks with
  | [] => (Ok tt, s)
  | c :: rest =>
      if SimplePID.Qltb (t_while c - start_time s) 45 then
        match iteration np_cos c s with
        | (Ok _, s') => run np_cos rest s'
        | (Raise e, s') => (Raise e, s')
        end
      else (Ok tt, s)
  end.

End Sim.

(** * Properties *)

(** ** Sign extension *)

(** The value of the low [bits] bits of [v] read as two's complement. *)
Definition twos_complement (bits v : Z) : Z :=
  let m := v mod 2 ^ bits in
  if m <? 2 ^ (bits - 1) then m else m - 2 ^ bits.

Lemma land_pow2 (v k : Z) :
  0 <= k -> Z.land v (2 ^ k) = if Z.testbit v k then 2 ^ k else 0.
Proof.
  intros Hk. apply Z.bits_inj'. intros n Hn.
  rewrite Z.land_spec, Z.pow2_bits_eqb by assumption.
  destruct (Z.eqb_spec k n) as [->|Hne].
  - destruct (Z.testbit v n) eqn:E; cbn.
    + now rewrite Z.pow2_bits_true.
    + now rewrite Z.bits_0.
  - rewrite andb_false_r. destruct (Z.testbit v k).
    + rewrite Z.pow2_bits_false; [reflexivity | assumption].
    + now rewrite Z.bits_0.
Qed.

Lemma sign_extend_twos_complement (bits v : Z) :
  1 <= bits -> Mount.sign_extend v bits = Ok (twos_complement bits v).
Proof.
  intros Hb. unfold Mount.sign_extend, twos_complement.
  destruct (Z.ltb_spec (bits - 1) 0) as [?|_]; [lia|].
  f_equal. cbv zeta.
  rewrite Z.shiftl_1_l.
  replace (2 ^ (bits - 1) - 1) with (Z.ones (bits - 1))
    by (rewrite Z.ones_equiv; lia).
  rewrite Z.land_ones by lia.
  rewrite land_pow2 by lia.
  assert (Hp : 0 < 2 ^ (bits - 1)) by (apply Z.pow_pos_nonneg; lia).
  assert (Hpow : 2 ^ bits = 2 ^ (bits - 1) * 2).
  { replace bits with ((bits - 1) + 1) at 1 by lia.
    rewrite Z.pow_add_r by lia. reflexivity. }
  rewrite Hpow, Z.rem_mul_r by lia.
  pose proof (Z.mod_pos_bound v (2 ^ (bits - 1)) Hp) as Hlow.
  destruct (Z.testbit v (bits - 1)) eqn:E.
  - apply Z.testbit_true in E; [|lia]. rewrite E.
    destruct (Z.ltb_spec (v mod 2 ^ (bits - 1) + 2 ^ (bits - 1) * 1) (2 ^ (bits - 1))); lia.
  - apply Z.testbit_false in E; [|lia]. rewrite E.
    destruct (Z.ltb_spec (v mod 2 ^ (bits - 1) + 2 ^ (bits - 1) * 0) (2 ^ (bits - 1))); lia.
Qed.

Lemma twos_complement_range (bits v : Z) :
  1 <= bits -> - 2 ^ (bits - 1) <= twos_complement bits v < 2 ^ (bits - 1).
Proof.
  intros Hb. unfold twos_complement.
  assert (Hp : 0 < 2 ^ (bits - 1)) by (apply Z.pow_pos_nonneg; lia).
  assert (Hpow : 2 ^ bits = 2 ^ (bits - 1) * 2).
  { replace bits with ((bits - 1) + 1) at 1 by lia.
    rewrite Z.pow_add_r by lia. reflexivity. }
  pose proof (Z.mod_pos_bound v (2 ^ bits) ltac:(lia)) as Hm.
  cbv zeta. destruct (Z.ltb_spec (v mod 2 ^ bits) (2 ^ (bits - 1))); lia.
Qed.

Lemma twos_complement_congr (bits v : Z) :
  1 <= bits -> (twos_complement bits v) mod 2 ^ bits = v mod 2 ^ bits.
Proof.
  intros Hb. unfold twos_complement. cbv zeta.
  assert (Hp : 0 < 2 ^ bits) by (apply Z.pow_pos_nonneg; lia).
  destruct (Z.ltb_spec (v mod 2 ^ bits) (2 ^ (bits - 1))).
  - apply Z.mod_mod. lia.
  - replace (v mod 2 ^ bits - 2 ^ bits) with (v mod 2 ^ bits + (-1) * 2 ^ bits) by lia.
    rewrite Z.mod_add by lia. apply Z.mod_mod. lia.
Qed.

Lemma twos_complement_small (bits v : Z) :
  1 <= bits -> - 2 ^ (bits - 1) <= v < 2 ^ (bits - 1) -> twos_complement bits v = v.
Proof.
  intros Hb Hv.
  pose proof (twos_complement_range bits v Hb) as Hr.
  pose proof (twos_complement_congr bits v Hb) as Hc.
  assert (Hpow : 2 ^ bits = 2 ^ (bits - 1) * 2).
  { replace bits with ((bits - 1) + 1) at 1 by lia.
    rewrite Z.pow_add_r by lia. reflexivity. }
  assert (Hp : 0 < 2 ^ (bits - 1)) by (apply Z.pow_pos_nonneg; lia).
  set (t := twos_complement bits v) in *.
  assert (Hd : (t - v) mod 2 ^ bits = 0).
  { rewrite Zminus_mod, Hc, Z.sub_diag. apply Z.mod_0_l. lia. }
  apply Z.mod_divide in Hd; [|lia]. destruct Hd as [k Hk].
  set (P := 2 ^ (bits - 1)) in *. rewrite Hpow in Hk.
  assert (Hk0 : k = 0) by nia.
  subst k. lia.
Qed.

(** C4. [sign_extend] reads the low [bits] bits of any integer as a two's
    complement number, for every width of at least one bit and without any
    overflow; for 32 bits the result lies in [-2^31, 2^31) and agrees with
    the argument modulo [2^32]; [0xFFFFFFFF], [0x7FFFFFFF] and [0x80000000]
    give [-1], [2147483647] and [-2147483648]. *)
Theorem sign_extend_correct :
  (forall bits v, 1 <= bits ->
     Mount.sign_extend v bits = Ok (twos_complement bits v)) /\
  (forall v, exists r,
     Mount.sign_extend v 32 = Ok r /\
     - 2 ^ 31 <= r < 2 ^ 31 /\ r mod 2 ^ 32 = v mod 2 ^ 32) /\
  Mount.sign_extend 0xFFFFFFFF 32 = Ok (-1) /\
  Mount.sign_extend 0x7FFFFFFF 32 = Ok 2147483647 /\
  Mount.sign_extend 0x80000000 32 = Ok (-2147483648).
Proof.
  split; [exact sign_extend_twos_complement|].
  split; [|repeat split; reflexivity].
  intros v. exists (twos_complement 32 v). split; [|split].
  - apply sign_extend_twos_complement. lia.
  - exact (twos_complement_range 32 v ltac:(lia)).
  - exact (twos_complement_congr 32 v ltac:(lia)).
Qed.

Lemma sign_extend_correct_witness :
  1 <= 32 /\ Mount.sign_extend 0x80000000 32 = Ok (twos_complement 32 0x80000000).
Proof.
  split; [lia | apply (proj1 sign_extend_correct); lia].
Defined.

(** ** Angle codec *)

(** Rounding to the nearest integer, ties to the even one. *)
Definition round_half_even (x : Q) : Z :=
  let f := Qfloor x in
  let r := (x - inject_Z f)%Q in
  if SimplePID.Qltb r (1 # 2) then f
  else if SimplePID.Qltb (1 # 2) r then f + 1
  else if Z.even f then f else f + 1.

(** The conversion as the specification words it: the rounded quotient,
    wrapped to 32-bit two's complement. *)
Definition spec_angle_to_counts (angle resolution : Q) : Z :=
  twos_complement 32 (round_half_even (angle / resolution)).

Lemma int_of_float_nonneg (x : Q) :
  (0 <= x)%Q ->
  (inject_Z (Py.int_of_float x) <= x)%Q /\ (x < inject_Z (Py.int_of_float x) + 1)%Q /\
  0 <= Py.int_of_float x.
Proof.
  destruct x as [n d]. unfold Py.int_of_float, Qle, Qlt. cbn.
  intros Hn. rewrite Z.mul_1_r in Hn.
  pose proof (Z.quot_rem' n (Z.pos d)) as E.
  pose proof (Z.rem_bound_pos n (Z.pos d) Hn (Pos2Z.is_pos d)) as B.
  repeat split; nia.
Qed.

Lemma int_of_float_nonpos (x : Q) :
  (x <= 0)%Q ->
  (inject_Z (Py.int_of_float x) - 1 < x)%Q /\ (x <= inject_Z (Py.int_of_float x))%Q /\
  Py.int_of_float x <= 0.
Proof.
  destruct x as [n d]. unfold Py.int_of_float, Qle, Qlt. cbn.
  intros Hn. rewrite Z.mul_1_r in Hn.
  pose proof (Z.quot_rem' n (Z.pos d)) as E.
  pose proof (Z.rem_bound_pos_neg n (Z.pos d) (Pos2Z.is_pos d) Hn) as B.
  repeat split; nia.
Qed.

Lemma counts_field_mod (resolution angle : Q) :
  Mount.counts_field resolution angle =
  Py.int_of_float (angle / resolution) mod 2 ^ 32.
Proof.
  unfold Mount.counts_field.
  change 0xffffffff with (Z.ones 32). now rewrite Z.land_ones by lia.
Qed.

Lemma twos_complement_mod (bits v : Z) :
  1 <= bits -> twos_complement bits (v mod 2 ^ bits) = twos_complement bits v.
Proof.
  intros Hb. unfold twos_complement.
  rewrite Z.mod_mod; [reflexivity|].
  assert (0 < 2 ^ bits) by (apply Z.pow_pos_nonneg; lia). lia.
Qed.

Lemma counts_to_angle_field (resolution angle : Q) :
  Mount.counts_to_angle resolution (Mount.counts_field resolution angle) =
  Ok (inject_Z (twos_complement 32 (Py.int_of_float (angle / resolution))) * resolution)%Q.
Proof.
  unfold Mount.counts_to_angle.
  change 0xffffffff with (Z.ones 32). rewrite Z.land_ones by lia.
  rewrite counts_field_mod, Z.mod_mod by lia.
  rewrite sign_extend_twos_complement by lia.
  cbn [rbind]. now rewrite twos_complement_mod by lia.
Qed.

(** Truncation never moves away from zero and loses less than one
    encoder step. *)
Lemma truncated_angle (resolution angle : Q) :
  (0 < resolution)%Q ->
  let back := (inject_Z (Py.int_of_float (angle / resolution)) * resolution)%Q in
  (Qabs (back - angle) < resolution)%Q /\ (Qabs back <= Qabs angle)%Q /\
  ((0 <= angle)%Q -> (back <= angle)%Q) /\ ((angle <= 0)%Q -> (angle <= back)%Q).
Proof.
  intros Hr back.
  set (q := (angle / resolution)%Q) in *.
  assert (Ea : (angle == q * resolution)%Q)
    by (unfold q; field; intro E; rewrite E in Hr; discriminate).
  assert (Hcases : (0 <= q)%Q \/ (q <= 0)%Q)
    by (destruct (Qlt_le_dec q 0); [right; Lqa.lra | left; assumption]).
  set (c := inject_Z (Py.int_of_float q)) in *.
  assert (Hb : (back == c * resolution)%Q) by reflexivity.
  destruct Hcases as [Hq|Hq].
  - destruct (int_of_float_nonneg q Hq) as (H1 & H2 & H3). fold c in H1, H2.
    assert (Hc0 : (0 <= c)%Q) by (unfold c; change 0%Q with (inject_Z 0); now rewrite <- Zle_Qle).
    assert (M1 : (c * resolution <= q * resolution)%Q) by (apply Qmult_le_compat_r; Lqa.lra).
    assert (M2 : (q * resolution < (c + 1) * resolution)%Q) by (apply Qmult_lt_compat_r; Lqa.lra).
    assert (M3 : (0 <= c * resolution)%Q) by (apply Qmult_le_0_compat; Lqa.lra).
    repeat split.
    + apply Qabs_Qlt_condition. split; Lqa.lra.
    + rewrite (Qabs_pos back), (Qabs_pos angle); Lqa.lra.
    + intros _. Lqa.lra.
    + intros Hle. Lqa.lra.
  - destruct (int_of_float_nonpos q Hq) as (H1 & H2 & H3). fold c in H1, H2.
    assert (Hc0 : (c <= 0)%Q) by (unfold c; change 0%Q with (inject_Z 0); now rewrite <- Zle_Qle).
    assert (M1 : ((c - 1) * resolution < q * resolution)%Q) by (apply Qmult_lt_compat_r; Lqa.lra).
    assert (M2 : (q * resolution <= c * resolution)%Q) by (apply Qmult_le_compat_r; Lqa.lra).
    assert (M3 : (c * resolution <= 0 * resolution)%Q) by (apply Qmult_le_compat_r; Lqa.lra).
    repeat split.
    + apply Qabs_Qlt_condition. split; Lqa.lra.
    + rewrite (Qabs_neg back), (Qabs_neg angle); Lqa.lra.
    + intros Hge. Lqa.lra.
    + intros _. Lqa.lra.
Qed.







(** ** Command frames *)

(** The answer of the mount to [gp] when it stands at its home position. *)
Definition position_zero : string := ("0PO00000000" ++ Py.crlf)%string.

(** What the port looks like after a command was written and one line
    was read. *)
Definition after_command (command : string) (port : Mount.serial) : Mount.serial :=
  {| Mount.tx := Mount.tx port ++ [command]; Mount.rx := tl (Mount.rx port) |}.

(** The line the next [readline] returns. *)
Definition next_line (port : Mount.serial) : string := hd EmptyString (Mount.rx port).

Lemma get_angle_eq (port : Mount.serial) :
  Mount.get_angle port =
  (Mount.parse_position Mount.ENCODER_RESOLUTION (next_line port),
   after_command ("0gp" ++ Py.crlf) port).
Proof.
  destruct port as [t [|l r]]; unfold Mount.get_angle, Mount.bind, Mount.lift,
    Mount.write, Mount.readline, Mount.ret, after_command, next_line; cbn;
    match goal with |- context [Mount.parse_position ?a ?b] =>
      destruct (Mount.parse_position a b) end; reflexivity.
Qed.

Lemma move_to_eq (angle : Q) (port : Mount.serial) :
  Mount.move_to angle port =
  (Ok tt,
   after_command
     ("0ma" ++ Py.format_0wx true 8 (Mount.counts_field Mount.ENCODER_RESOLUTION angle)
      ++ Py.crlf) port).
Proof.
  destruct port as [t [|l r]]; reflexivity.
Qed.

(** C7 fails on [set_speed]: for 75 percent the frame written is the five
    bytes [0sv4b], with a lower-case digit and no [\r\n] after it, whereas
    [move_to], [move_by] and [get_angle] write upper-case digits and end
    their frames with [\r\n]. *)
Theorem set_speed_frame_75 (port : Mount.serial) :
  Mount.tx (snd (Mount.set_speed 75 port)) = (Mount.tx port ++ ["0sv4b"%string])%list /\
  Mount.tx (snd (Mount.move_to (1 # 2) port)) =
    (Mount.tx port ++ [("0ma00002C97" ++ Py.crlf)%string])%list /\
  Mount.tx (snd (Mount.move_by (1 # 2) port)) =
    (Mount.tx port ++ [("0mr00002C97" ++ Py.crlf)%string])%list /\
  Mount.tx (snd (Mount.get_angle port)) = (Mount.tx port ++ [("0gp" ++ Py.crlf)%string])%list.
Proof.
  repeat split.
  - destruct port as [t [|l r]]; reflexivity.
  - now rewrite move_to_eq.
  - destruct port as [t [|l r]]; reflexivity.
  - now rewrite get_angle_eq.
Qed.

(** C2 fails when the sum of the angle read and the correction is
    negative.  With the mount at home and the measured voltage 1, the PID
    output is -0.8 and the loop writes [0gp] and then the absolute move
    [0maFFFFB8A8], whose payload is the count -18264: a negative target,
    not the forward equivalent of the correction.  No [mr] frame is
    written. *)
Theorem loop_negative_target :
  let port := {| Mount.tx := []; Mount.rx := [position_zero; position_zero] |} in
  let s := Loop.init port 0 0 in
  let i := {| Loop.measured_voltage := 1; Loop.pid_clock := 5; Loop.now := 5 |} in
  (exists u, fst (SimplePID.call (Loop.pid s) 1 5) = Some u /\ (u == - (8 # 10))%Q) /\
  fst (Mount.get_angle port) = Ok (inject_Z 0 * Mount.ENCODER_RESOLUTION)%Q /\
  fst (Loop.iteration i s) = Ok tt /\
  Mount.tx (Loop.ser (snd (Loop.iteration i s))) =
    [("0gp" ++ Py.crlf)%string; ("0maFFFFB8A8" ++ Py.crlf)%string] /\
  Mount.sign_extend 0xFFFFB8A8 32 = Ok (-18264).
Proof.
  cbv zeta. split; [eexists; split; [reflexivity | reflexivity]|].
  repeat split.
Qed.

(** ** Reading a position *)

Lemma substring_zero_length (n : nat) (s : string) : substring n 0 s = EmptyString.
Proof.
  revert s. induction n as [|n IH]; intros [|c s]; cbn; auto.
Qed.

Lemma slice_short (s : string) :
  (String.length s <= 10)%nat -> Py.slice s 5 (-5) = EmptyString.
Proof.
  intros Hlen. unfold Py.slice, Py.slice_index.
  change (5 <? 0) with false. change (-5 <? 0) with true. cbv iota zeta.
  replace (Z.to_nat (Z.max (-5 + Z.of_nat (String.length s)) 0
                     - Z.min 5 (Z.of_nat (String.length s)))) with 0%nat by lia.
  apply substring_zero_length.
Qed.

Lemma parse_position_short (resolution : Q) (response : string) :
  (String.length (Py.str_of_bytes response) <= 10)%nat ->
  Mount.parse_position resolution response = Raise ValueError.
Proof.
  intros Hlen. unfold Mount.parse_position.
  now rewrite slice_short by assumption.
Qed.

(** A pass of the loop in which the interval has elapsed and the answer
    to [gp] does not parse: the exception leaves the loop, after [0gp] and
    nothing else was written. *)
Lemma iteration_position_raises (i : Loop.sample) (s : Loop.state) (e : exn) :
  Qle_bool Loop.update_interval (Loop.now i - Loop.last_update_time s) = true ->
  Mount.parse_position Mount.ENCODER_RESOLUTION (next_line (Loop.ser s)) = Raise e ->
  fst (Loop.iteration i s) = Raise e /\
  Mount.tx (Loop.ser (snd (Loop.iteration i s))) =
    (Mount.tx (Loop.ser s) ++ [("0gp" ++ Py.crlf)%string])%list.
Proof.
  intros Hgate Hparse. unfold Loop.iteration.
  destruct (SimplePID.call (Loop.pid s) (Loop.measured_voltage i) (Loop.pid_clock i))
    as [u pid'].
  rewrite Hgate, get_angle_eq, Hparse. split; reflexivity.
Qed.

Lemma run_raises (i : Loop.sample) (rest : list Loop.sample) (s : Loop.state) (e : exn) :
  fst (Loop.iteration i s) = Raise e ->
  Loop.run (i :: rest) s = Loop.iteration i s.
Proof.
  cbn [Loop.run]. destruct (Loop.iteration i s) as [[[]|e'] s']; cbn; intros H;
    [discriminate | reflexivity].
Qed.

Lemma run_continues (i : Loop.sample) (rest : list Loop.sample) (s : Loop.state) :
  fst (Loop.iteration i s) = Ok tt ->
  Loop.run (i :: rest) s = Loop.run rest (snd (Loop.iteration i s)).
Proof.
  cbn [Loop.run]. destruct (Loop.iteration i s) as [[[]|e'] s']; cbn; intros H;
    [reflexivity | discriminate].
Qed.

Lemma call_returns_value (self : SimplePID.PID) (input_ now : Q) :
  exists u, fst (SimplePID.call self input_ now) = Some u.
Proof.
  unfold SimplePID.call.
  destruct (SimplePID.sample_time self) as [st|];
    [destruct (SimplePID._last_output self) as [last|] eqn:E|];
    try (eexists; reflexivity).
  destruct (SimplePID.Qltb (SimplePID.elapsed self now) st); cbn;
    eexists; reflexivity.
Qed.

(** A pass of the loop in which the interval has elapsed and [gp] is
    answered with a position: the sum of that angle and the value returned
    by the PID call goes to [move_to] as it is. *)
Lemma iteration_moves (i : Loop.sample) (s : Loop.state) (angle u : Q) :
  Qle_bool Loop.update_interval (Loop.now i - Loop.last_update_time s) = true ->
  Mount.parse_position Mount.ENCODER_RESOLUTION (next_line (Loop.ser s)) = Ok angle ->
  fst (SimplePID.call (Loop.pid s) (Loop.measured_voltage i) (Loop.pid_clock i)) = Some u ->
  fst (Loop.iteration i s) = Ok tt /\
  Loop.ser (snd (Loop.iteration i s)) =
    {| Mount.tx :=
         Mount.tx (Loop.ser s) ++
         [("0gp" ++ Py.crlf)%string;
          ("0ma" ++ Py.format_0wx true 8
                      (Mount.counts_field Mount.ENCODER_RESOLUTION (angle + u))
           ++ Py.crlf)%string];
       Mount.rx := tl (tl (Mount.rx (Loop.ser s))) |} /\
  Loop.last_update_time (snd (Loop.iteration i s)) = Loop.now i.
Proof.
  intros Hgate Hparse Hu. unfold Loop.iteration.
  destruct (SimplePID.call (Loop.pid s) (Loop.measured_voltage i) (Loop.pid_clock i))
    as [c pid'].
  cbn in Hu. subst c.
  rewrite Hgate, get_angle_eq, Hparse, move_to_eq. unfold after_command. cbn.
  rewrite <- app_assoc. repeat split.
Qed.

(** C10, as stated, fails: the seven-byte answer [0PO1234\r\n] is too
    short to hold eight hexadecimal digits, yet [get_angle] returns a
    position for it (count 0x1234) and the loop goes on. *)
Lemma get_angle_short_line_counterexample :
  (String.length ("0PO1234" ++ Py.crlf) < String.length position_zero)%nat /\
  fst (Mount.get_angle {| Mount.tx := []; Mount.rx := [("0PO1234" ++ Py.crlf)%string] |})
    = Ok (inject_Z 0x1234 * Mount.ENCODER_RESOLUTION)%Q /\
  fst (Loop.iteration
         {| Loop.measured_voltage := 1; Loop.pid_clock := 5; Loop.now := 5 |}
         (Loop.init {| Mount.tx := []; Mount.rx := [("0PO1234" ++ Py.crlf)%string] |} 0 0))
    = Ok tt.
Proof.
  split; [cbn; lia|]. split; reflexivity.
Qed.

(** C10, amended.  For every answer whose printed form [str(response)] has
    at most ten characters, so that nothing is left between its first five
    and its last five characters (the empty line returned after a read
    timeout is one), [get_angle] raises [ValueError] instead of returning a
    value; no statement of the loop handles it, so a pass in which the
    interval has elapsed and [gp] is answered that way ends the loop with
    that exception after writing [0gp] only.  A short answer that leaves
    hexadecimal digits there is read as a position. *)
Theorem get_angle_short_line_raises (port : Mount.serial) :
  (String.length (Py.str_of_bytes (next_line port)) <= 10)%nat ->
  fst (Mount.get_angle port) = Raise ValueError /\
  (forall i rest s,
     Loop.ser s = port ->
     Qle_bool Loop.update_interval (Loop.now i - Loop.last_update_time s) = true ->
     fst (Loop.run (i :: rest) s) = Raise ValueError /\
     Mount.tx (Loop.ser (snd (Loop.run (i :: rest) s))) =
       (Mount.tx port ++ [("0gp" ++ Py.crlf)%string])%list) /\
  String.length (Py.str_of_bytes EmptyString) = 3%nat.
Proof.
  intros Hlen.
  pose proof (parse_position_short Mount.ENCODER_RESOLUTION _ Hlen) as Hparse.
  split; [now rewrite get_angle_eq|]. split; [|reflexivity].
  intros i rest s <- Hgate.
  destruct (iteration_position_raises i s ValueError Hgate Hparse) as [H1 H2].
  rewrite (run_raises i rest s ValueError H1). split; assumption.
Qed.

Lemma get_angle_short_line_raises_witness :
  fst (Mount.get_angle {| Mount.tx := []; Mount.rx := [] |}) = Raise ValueError.
Proof.
  apply (get_angle_short_line_raises {| Mount.tx := []; Mount.rx := [] |}).
  cbn. lia.
Defined.

(** ** Read timeouts in the loop *)

(** C8, as stated, fails: when nothing answers [gp] the read times out,
    [get_angle] raises, and the loop ends at that pass; the sample that
    would follow is never taken. *)
Lemma timeout_ends_loop_counterexample :
  fst (Loop.run
         [{| Loop.measured_voltage := 1; Loop.pid_clock := 5; Loop.now := 5 |};
          {| Loop.measured_voltage := 1; Loop.pid_clock := 6; Loop.now := 6 |}]
         (Loop.init {| Mount.tx := []; Mount.rx := [] |} 0 0)) = Raise ValueError /\
  Loop.times
    (snd (Loop.run
            [{| Loop.measured_voltage := 1; Loop.pid_clock := 5; Loop.now := 5 |};
             {| Loop.measured_voltage := 1; Loop.pid_clock := 6; Loop.now := 6 |}]
            (Loop.init {| Mount.tx := []; Mount.rx := [] |} 0 0))) = [5%Q].
Proof.
  split; reflexivity.
Qed.

(** C8, amended.  In a pass in which the interval has elapsed:
    - when the read after [0gp] times out (the empty line comes back),
      [get_angle] raises [ValueError], no move is written in that pass,
      and the loop ends there, whatever samples would follow;
    - when [gp] is answered with a position and only the read after the
      move times out, the empty answer is dropped, the move was written
      once, [last_update_time] is set, and the loop goes on with the next
      sample. *)
Theorem read_timeout_in_loop (i : Loop.sample) (rest : list Loop.sample) (s : Loop.state) :
  Qle_bool Loop.update_interval (Loop.now i - Loop.last_update_time s) = true ->
  (next_line (Loop.ser s) = EmptyString ->
   Loop.run (i :: rest) s = Loop.iteration i s /\
   fst (Loop.iteration i s) = Raise ValueError /\
   Mount.tx (Loop.ser (snd (Loop.iteration i s))) =
     (Mount.tx (Loop.ser s) ++ [("0gp" ++ Py.crlf)%string])%list) /\
  (forall line angle,
     Mount.rx (Loop.ser s) = [line] ->
     Mount.parse_position Mount.ENCODER_RESOLUTION line = Ok angle ->
     exists u,
       fst (SimplePID.call (Loop.pid s) (Loop.measured_voltage i) (Loop.pid_clock i)) = Some u /\
       fst (Loop.iteration i s) = Ok tt /\
       Loop.ser (snd (Loop.iteration i s)) =
         {| Mount.tx :=
              Mount.tx (Loop.ser s) ++
              [("0gp" ++ Py.crlf)%string;
               ("0ma" ++ Py.format_0wx true 8
                           (Mount.counts_field Mount.ENCODER_RESOLUTION (angle + u))
                ++ Py.crlf)%string];
            Mount.rx := [] |} /\
       Loop.last_update_time (snd (Loop.iteration i s)) = Loop.now i /\
       Loop.run (i :: rest) s = Loop.run rest (snd (Loop.iteration i s))).
Proof.
  intros Hgate. split.
  - intros Hempty.
    assert (Hparse : Mount.parse_position Mount.ENCODER_RESOLUTION (next_line (Loop.ser s))
                     = Raise ValueError) by (rewrite Hempty; reflexivity).
    destruct (iteration_position_raises i s ValueError Hgate Hparse) as [H1 H2].
    split; [exact (run_raises i rest s ValueError H1) | split; assumption].
  - intros line angle Hrx Hparse.
    destruct (call_returns_value (Loop.pid s) (Loop.measured_voltage i) (Loop.pid_clock i))
      as [u Hu].
    exists u. split; [exact Hu|].
    assert (Hparse' : Mount.parse_position Mount.ENCODER_RESOLUTION (next_line (Loop.ser s))
                      = Ok angle) by (unfold next_line; rewrite Hrx; exact Hparse).
    destruct (iteration_moves i s angle u Hgate Hparse' Hu) as (H1 & H2 & H3).
    rewrite Hrx in H2. cbn [tl] in H2.
    repeat split; try assumption.
    exact (run_continues i rest s H1).
Qed.

Lemma read_timeout_in_loop_witness :
  Loop.run
    [{| Loop.measured_voltage := 1; Loop.pid_clock := 5; Loop.now := 5 |}]
    (Loop.init {| Mount.tx := []; Mount.rx := [] |} 0 0)
  = Loop.iteration
      {| Loop.measured_voltage := 1; Loop.pid_clock := 5; Loop.now := 5 |}
      (Loop.init {| Mount.tx := []; Mount.rx := [] |} 0 0).
Proof.
  apply (read_timeout_in_loop
           {| Loop.measured_voltage := 1; Loop.pid_clock := 5; Loop.now := 5 |} []
           (Loop.init {| Mount.tx := []; Mount.rx := [] |} 0 0)); reflexivity.
Defined.

(** ** The PID output *)

Lemma Qltb_true (x y : Q) : SimplePID.Qltb x y = true <-> (x < y)%Q.
Proof.
  unfold SimplePID.Qltb. rewrite negb_true_iff.
  destruct (Qle_bool y x) eqn:E.
  - apply Qle_bool_iff in E. split; [discriminate | intros H; Lqa.lra].
  - split; [intros _ | reflexivity].
    destruct (Qlt_le_dec x y) as [H|H]; [exact H|].
    apply Qle_bool_iff in H. congruence.
Qed.

Lemma Qltb_false (x y : Q) : SimplePID.Qltb x y = false <-> (y <= x)%Q.
Proof.
  unfold SimplePID.Qltb. rewrite negb_false_iff. apply Qle_bool_iff.
Qed.

Lemma PI4_below_8_10 : (PI / 4 < 8 / 10)%R.
Proof.
  pose proof (PI_2_3_7_ineq 1) as [_ H].
  unfold sum_f_R0, tg_alt, PI_2_3_7_tg, Ratan.Ratan_seq in H. simpl in H. Lra.lra.
Qed.

(** The calls made on a PID object so far: measurement and clock reading
    of each, oldest first. *)
Definition replay (self : SimplePID.PID) (history : list (Q * Q)) : SimplePID.PID :=
  fold_left (fun p c => snd (SimplePID.call p (fst c) (snd c))) history self.

(** What holds of the object of either notebook at any time: proportional
    gain one, no integral or derivative gain, no output limits, and a last
    output that is the error of one of the measurements seen. *)
Definition proportional_only (sp : Q) (seen : list Q) (self : SimplePID.PID) : Prop :=
  (SimplePID.Kp self == 1)%Q /\ (SimplePID.Ki self == 0)%Q /\ (SimplePID.Kd self == 0)%Q /\
  SimplePID.setpoint self = sp /\
  SimplePID.output_limits self = (None, None) /\
  (SimplePID._integral self == 0)%Q /\
  (forall o, SimplePID._last_output self = Some o ->
             exists x, In x seen /\ (o == sp - x)%Q).

Lemma proportional_only_new (sp st now : Q) :
  proportional_only sp [] (SimplePID.new 1 0 0 sp st now).
Proof.
  repeat split; try reflexivity. cbn. intros o H. discriminate.
Qed.

Lemma proportional_only_weaken (sp : Q) (seen seen' : list Q) (self : SimplePID.PID) :
  incl seen seen' -> proportional_only sp seen self -> proportional_only sp seen' self.
Proof.
  intros Hincl (H1 & H2 & H3 & H4 & H5 & H6 & H7).
  repeat split; try assumption.
  intros o Ho. destruct (H7 o Ho) as (x & Hx & E). exists x. split; [apply Hincl; exact Hx | exact E].
Qed.

Lemma compute_proportional_only (sp : Q) (seen : list Q) (self : SimplePID.PID) (x now : Q) :
  proportional_only sp seen self ->
  exists u, fst (SimplePID.compute self x now) = Some u /\ (u == sp - x)%Q /\
            proportional_only sp (x :: seen) (snd (SimplePID.compute self x now)).
Proof.
  intros (H1 & H2 & H3 & H4 & H5 & H6 & H7).
  unfold SimplePID.compute. rewrite H5. cbn [SimplePID._clamp fst snd].
  eexists. split; [reflexivity|].
  assert (E : (SimplePID.Kp self * (SimplePID.setpoint self - x) +
               (SimplePID._integral self +
                SimplePID.Ki self * (SimplePID.setpoint self - x) * SimplePID.elapsed self now) +
               - SimplePID.Kd self *
                 (x - match SimplePID._last_input self with Some li => li | None => x end) /
               SimplePID.elapsed self now == sp - x)%Q).
  { rewrite H1, H2, H3, H6, H4. unfold Qdiv. ring. }
  split; [exact E|].
  repeat split; cbn; try assumption.
  - rewrite H6, H2. ring.
  - intros o Ho. injection Ho as <-. exists x. split; [now left | exact E].
Qed.

Lemma call_proportional_only (sp : Q) (seen : list Q) (self : SimplePID.PID) (x now : Q) :
  proportional_only sp seen self ->
  exists u m, fst (SimplePID.call self x now) = Some u /\ In m (x :: seen) /\
              (u == sp - m)%Q /\
              proportional_only sp (x :: seen) (snd (SimplePID.call self x now)).
Proof.
  intros Hinv.
  destruct (compute_proportional_only sp seen self x now Hinv) as (u & Hu & Eu & Hinv').
  assert (Hcomp : exists u m, fst (SimplePID.compute self x now) = Some u /\ In m (x :: seen) /\
              (u == sp - m)%Q /\
              proportional_only sp (x :: seen) (snd (SimplePID.compute self x now))).
  { exists u, x. split; [exact Hu|]. split; [now left|]. split; [exact Eu | exact Hinv']. }
  unfold SimplePID.call.
  destruct (SimplePID.sample_time self) as [st|]; [|exact Hcomp].
  destruct (SimplePID._last_output self) as [last|] eqn:El; [|exact Hcomp].
  destruct (SimplePID.Qltb (SimplePID.elapsed self now) st); [|exact Hcomp].
  destruct Hinv as (H1 & H2 & H3 & H4 & H5 & H6 & H7).
  destruct (H7 last El) as (m & Hm & Em).
  exists last, m. cbn [fst snd].
  split; [reflexivity|]. split; [now right|]. split; [exact Em|].
  apply (proportional_only_weaken sp seen); [apply incl_tl, incl_refl|].
  repeat split; assumption.
Qed.

Lemma replay_proportional_only (sp : Q) (history : list (Q * Q)) :
  forall (seen : list Q) (self : SimplePID.PID),
  proportional_only sp seen self ->
  proportional_only sp (rev (map fst history) ++ seen) (replay self history).
Proof.
  induction history as [|[x t] history IH]; intros seen self Hinv; [exact Hinv|].
  cbn [replay fold_left map rev fst snd].
  destruct (call_proportional_only sp seen self x t Hinv) as (u & m & _ & _ & _ & Hinv').
  specialize (IH (x :: seen) _ Hinv').
  rewrite <- app_assoc. exact IH.
Qed.

(** C1, as stated, fails: the controller is built without output limits
    and nothing clamps its output.  At the measured voltage 1 the output
    is -0.8, whose magnitude exceeds pi/4, and the loop sends the move
    whose payload is the count of 0 - 0.8 rad. *)
Lemma pid_output_limit_counterexample :
  exists u,
    fst (SimplePID.call (Loop.pid (Loop.init {| Mount.tx := []; Mount.rx := [position_zero] |} 0 0))
           1 5) = Some u /\
    (PI / 4 < Q2R (Qabs u))%R /\
    Mount.tx (Loop.ser (snd (Loop.iteration
        {| Loop.measured_voltage := 1; Loop.pid_clock := 5; Loop.now := 5 |}
        (Loop.init {| Mount.tx := []; Mount.rx := [position_zero] |} 0 0)))) =
    [("0gp" ++ Py.crlf)%string;
     ("0ma" ++ Py.format_0wx true 8
                 (Mount.counts_field Mount.ENCODER_RESOLUTION (0 - (8 # 10))) ++ Py.crlf)%string].
Proof.
  eexists. split; [reflexivity|]. split; [|reflexivity].
  pose proof PI4_below_8_10 as H.
  unfold Q2R. cbn. Lra.lra.
Qed.

(** C1, amended.  The controller of the control loop has gains 1, 0, 0
    and no output limits, so whatever calls were made on it before, the
    value a call returns is the plain error [target_voltage - m] of a
    measurement [m] it was given (the current one or an earlier one):
    there is no clamp, and the magnitude is at most pi/4 exactly when that
    error's is.  In a pass that actuates, this value is added to the angle
    read and the sum goes to [move_to] unchanged. *)
Theorem pid_output_is_plain_error
    (port : Mount.serial) (t_pid t0 : Q) (history : list (Q * Q))
    (i : Loop.sample) (s : Loop.state) :
  Loop.pid s = replay (Loop.pid (Loop.init port t_pid t0)) history ->
  exists u m,
    fst (SimplePID.call (Loop.pid s) (Loop.measured_voltage i) (Loop.pid_clock i)) = Some u /\
    In m (Loop.measured_voltage i :: rev (map fst history)) /\
    (u == Loop.target_voltage - m)%Q /\
    ((Q2R (Qabs u) <= PI / 4)%R <-> (Q2R (Qabs (Loop.target_voltage - m)) <= PI / 4)%R) /\
    (Qle_bool Loop.update_interval (Loop.now i - Loop.last_update_time s) = true ->
     forall angle,
       Mount.parse_position Mount.ENCODER_RESOLUTION (next_line (Loop.ser s)) = Ok angle ->
       Mount.tx (Loop.ser (snd (Loop.iteration i s))) =
         (Mount.tx (Loop.ser s) ++
          [("0gp" ++ Py.crlf)%string;
           ("0ma" ++ Py.format_0wx true 8
                       (Mount.counts_field Mount.ENCODER_RESOLUTION (angle + u))
            ++ Py.crlf)%string])%list).
Proof.
  intros Hpid.
  pose proof (replay_proportional_only Loop.target_voltage history []
                (Loop.pid (Loop.init port t_pid t0))
                (proportional_only_new _ _ _)) as Hinv.
  rewrite <- Hpid, app_nil_r in Hinv.
  destruct (call_proportional_only _ _ _ (Loop.measured_voltage i) (Loop.pid_clock i) Hinv)
    as (u & m & Hu & Hm & Eu & _).
  exists u, m. split; [exact Hu|]. split; [exact Hm|]. split; [exact Eu|]. split.
  - assert (E : (Qabs u == Qabs (Loop.target_voltage - m))%Q) by (now rewrite Eu).
    now rewrite (Qeq_eqR _ _ E).
  - intros Hgate angle Hparse.
    destruct (iteration_moves i s angle u Hgate Hparse Hu) as (_ & H2 & _).
    now rewrite H2.
Qed.

Lemma pid_output_is_plain_error_witness :
  exists u m,
    fst (SimplePID.call (Loop.pid (Loop.init {| Mount.tx := []; Mount.rx := [position_zero] |} 0 0))
           1 5) = Some u /\
    In m (1%Q :: rev (map fst (@nil (Q * Q)))) /\
    (u == Loop.target_voltage - m)%Q.
Proof.
  destruct (pid_output_is_plain_error
              {| Mount.tx := []; Mount.rx := [position_zero] |} 0 0 []
              {| Loop.measured_voltage := 1; Loop.pid_clock := 5; Loop.now := 5 |}
              (Loop.init {| Mount.tx := []; Mount.rx := [position_zero] |} 0 0)
              eq_refl) as (u & m & H1 & H2 & H3 & _).
  exists u, m. split; [exact H1 | split; [exact H2 | exact H3]].
Defined.

(** ** Sample-time gating *)

Lemma call_gated (self : SimplePID.PID) (x now st o : Q) :
  SimplePID.sample_time self = Some st ->
  SimplePID._last_output self = Some o ->
  (SimplePID.elapsed self now < st)%Q ->
  SimplePID.call self x now = (Some o, self).
Proof.
  intros Hst Ho Hdt. unfold SimplePID.call. rewrite Hst, Ho.
  apply Qltb_true in Hdt. now rewrite Hdt.
Qed.

Lemma call_sample_time (self : SimplePID.PID) (x now : Q) :
  SimplePID.sample_time (snd (SimplePID.call self x now)) = SimplePID.sample_time self.
Proof.
  unfold SimplePID.call.
  destruct (SimplePID.sample_time self) as [st|] eqn:E1;
    [destruct (SimplePID._last_output self);
       [destruct (SimplePID.Qltb _ _)|]|]; cbn; congruence.
Qed.

Lemma call_last_output (self : SimplePID.PID) (x now : Q) :
  SimplePID._last_output (snd (SimplePID.call self x now)) = fst (SimplePID.call self x now).
Proof.
  unfold SimplePID.call.
  destruct (SimplePID.sample_time self) as [st|]; [|reflexivity].
  destruct (SimplePID._last_output self) eqn:E; [|reflexivity].
  destruct (SimplePID.Qltb _ _); [cbn; exact E | reflexivity].
Qed.

Lemma elapsed_positive (self : SimplePID.PID) (now : Q) :
  (SimplePID._last_time self < now)%Q ->
  SimplePID.elapsed self now = (now - SimplePID._last_time self)%Q.
Proof.
  intros H. unfold SimplePID.elapsed.
  destruct (Qeq_bool (now - SimplePID._last_time self) 0) eqn:E; [|reflexivity].
  apply Qeq_bool_iff in E. Lqa.lra.
Qed.

(** C3, as stated, fails: a call that comes too early does return a
    value, the output of the call before it.  Here the first call, at
    time 1, returns -0.8 and the second, one second later with another
    measurement, returns it again and not [None]. *)
Lemma gated_call_returns_value_counterexample :
  SimplePID.sample_time (SimplePID.new 1 0 0 (2 # 10) 5 0) = Some 5%Q /\
  (2 - 1 < 5)%Q /\
  fst (SimplePID.call (snd (SimplePID.call (SimplePID.new 1 0 0 (2 # 10) 5 0) 1 1)) (1 # 2) 2)
    <> None /\
  fst (SimplePID.call (snd (SimplePID.call (SimplePID.new 1 0 0 (2 # 10) 5 0) 1 1)) (1 # 2) 2)
    = fst (SimplePID.call (SimplePID.new 1 0 0 (2 # 10) 5 0) 1 1).
Proof.
  repeat split. vm_compute. discriminate.
Qed.

(** C3, amended.  When a call has taken a sample at time [t1] and the
    next call comes at [t2] with [t1 < t2] and [t2 - t1] below the sample
    time, the second call returns the value of the first again (a value,
    not [None]) and leaves the whole object, the integral included, as it
    was.  The integral only changes in a call made before any output
    exists, or without a sample time, or when the elapsed time is at
    least the sample time. *)
Theorem gated_call_repeats_output (self : SimplePID.PID) (x1 t1 x2 t2 st : Q) :
  SimplePID.sample_time self = Some st ->
  SimplePID._last_time (snd (SimplePID.call self x1 t1)) = t1 ->
  (t1 < t2)%Q -> (t2 - t1 < st)%Q ->
  (exists u, fst (SimplePID.call self x1 t1) = Some u /\
             fst (SimplePID.call (snd (SimplePID.call self x1 t1)) x2 t2) = Some u) /\
  snd (SimplePID.call (snd (SimplePID.call self x1 t1)) x2 t2) = snd (SimplePID.call self x1 t1) /\
  SimplePID._integral (snd (SimplePID.call (snd (SimplePID.call self x1 t1)) x2 t2)) =
    SimplePID._integral (snd (SimplePID.call self x1 t1)) /\
  (forall p x now,
     SimplePID._integral (snd (SimplePID.call p x now)) <> SimplePID._integral p ->
     SimplePID._last_output p = None \/ SimplePID.sample_time p = None \/
     exists T, SimplePID.sample_time p = Some T /\ (T <= SimplePID.elapsed p now)%Q).
Proof.
  intros Hst Hlast Hlt Hclose.
  destruct (call_returns_value self x1 t1) as [u Hu].
  set (p1 := snd (SimplePID.call self x1 t1)) in *.
  assert (Hst1 : SimplePID.sample_time p1 = Some st)
    by (unfold p1; now rewrite call_sample_time).
  assert (Ho1 : SimplePID._last_output p1 = Some u)
    by (unfold p1; now rewrite call_last_output).
  assert (Hdt : (SimplePID.elapsed p1 t2 < st)%Q).
  { rewrite elapsed_positive; rewrite Hlast; assumption. }
  pose proof (call_gated p1 x2 t2 st u Hst1 Ho1 Hdt) as Hcall.
  split; [exists u; split; [exact Hu | now rewrite Hcall]|].
  split; [now rewrite Hcall|]. split; [now rewrite Hcall|].
  intros p x now Hchange. unfold SimplePID.call in Hchange.
  destruct (SimplePID.sample_time p) as [T|]; [|now right; left].
  destruct (SimplePID._last_output p) as [o|]; [|now left].
  right; right. exists T. split; [reflexivity|].
  destruct (SimplePID.Qltb (SimplePID.elapsed p now) T) eqn:E.
  - cbn in Hchange. congruence.
  - now apply Qltb_false.
Qed.

Lemma gated_call_repeats_output_witness :
  exists u,
    fst (SimplePID.call (SimplePID.new 1 0 0 (2 # 10) 5 0) 1 1) = Some u /\
    fst (SimplePID.call (snd (SimplePID.call (SimplePID.new 1 0 0 (2 # 10) 5 0) 1 1)) (1 # 2) 2)
      = Some u.
Proof.
  apply (gated_call_repeats_output (SimplePID.new 1 0 0 (2 # 10) 5 0) 1 1 (1 # 2) 2 5);
    reflexivity.
Defined.
